(** * The event JSON table of the SQLite room server storage

    A shallow embedding of [roomserver/storage/sqlite3/event_json_table.go]:
    the table [roomserver_event_json], the statement that inserts one event
    and the statement that selects many, together with the part of
    [database/sql] the two functions are written against.

    The store itself is a few lines of glue; what it promises depends on the
    statements it sends and on which results of the driver it looks at.  The
    model therefore has three layers:
    - the values and statements ([value], [statement]) and what SQLite does
      with them on the table ([engine]);
    - the calls of [database/sql] ([ExecContext], [QueryContext], the row
      cursor), which may fail or be interrupted by the caller's context;
    - the two functions of the file, [insertEventJSON] and
      [bulkSelectEventJSON]. *)

From Stdlib Require Import ZArith Lia.
From stdpp Require Import base option list sorting gmap strings.

(** ** Go values *)

(** A Go [[]byte], by its contents: a nil slice and an empty one are not
    told apart. *)
Abbreviation bytes := (list Byte.byte).

Definition in_int64 (z : Z) : Prop := (- 2 ^ 63 ≤ z < 2 ^ 63)%Z.

(** Conversion to a 64-bit signed integer: two's complement wrap-around. *)
Definition wrap64 (z : Z) : Z := ((z + 2 ^ 63) `mod` 2 ^ 64 - 2 ^ 63)%Z.

(** Modelled from the spec: the package [roomserver/types] is not among the
    sources; the event identifier is "a 64-bit integer" (spec section 6), and
    the code converts it with [int64(eventNID)] and [types.EventNID(eventNID)]. *)
Definition EventNID : Type := Z.

Definition int64_of_EventNID (nid : EventNID) : Z := wrap64 nid.
Definition EventNID_of_int64 (z : Z) : EventNID := wrap64 z.

(** [type eventJSONPair struct { EventNID types.EventNID; EventJSON []byte }] *)
Record eventJSONPair : Type := mkPair {
  pair_EventNID : EventNID;
  pair_EventJSON : bytes
}.

(** The zero value that [make([]eventJSONPair, n)] fills the slice with. *)
Definition zero_pair : eventJSONPair := mkPair 0%Z [].

(** ** Errors and contexts *)

(** The error values that reach the store.  [context.Canceled] and
    [context.DeadlineExceeded] are what a finished context reports; every
    other error of [database/sql] or of the driver is an [ErrDriver]. *)
Inductive error : Type :=
| Canceled
| DeadlineExceeded
| ErrDriver (msg : string).

Definition is_cancellation (e : error) : bool :=
  match e with
  | Canceled | DeadlineExceeded => true
  | ErrDriver _ => false
  end.

Inductive cause : Type := ByCancel | ByDeadline.

Definition cause_error (c : cause) : error :=
  match c with ByCancel => Canceled | ByDeadline => DeadlineExceeded end.

(** A [context.Context], seen from one call of the store.  The driver works
    in steps: step [0] runs the statement, step [S i] fetches row [i] of the
    result.  [Background] is never done; [DoneBefore s c] is done, for cause
    [c], by the time the driver starts step [s]. *)
Inductive Context : Type :=
| Background
| DoneBefore (step : nat) (c : cause).

(** [ctx.Err()] as the driver sees it when it starts [step]. *)
Definition ctx_Err (ctx : Context) (step : nat) : option error :=
  match ctx with
  | Background => None
  | DoneBefore s c => if decide (s ≤ step) then Some (cause_error c) else None
  end.

(** ** SQL: values, statements, the table *)

Inductive value : Type :=
| VInteger (z : Z)
| VBlob (b : bytes).

(** The statements, by shape.  A placeholder [$n] is the number [n]. *)
Inductive statement : Type :=
| CreateTableIfNotExists
    (* CREATE TABLE IF NOT EXISTS roomserver_event_json (
         event_nid INTEGER NOT NULL PRIMARY KEY, event_json TEXT NOT NULL ) *)
| InsertOnConflictDoNothing
    (* INSERT INTO roomserver_event_json (event_nid, event_json)
         VALUES ($1, $2) ON CONFLICT DO NOTHING *)
| SelectWhereInOrderByAsc (inlist : list nat).
    (* SELECT event_nid, event_json FROM roomserver_event_json
         WHERE event_nid IN <inlist> ORDER BY event_nid ASC *)

Definition eventJSONSchema : statement := CreateTableIfNotExists.
Definition insertEventJSONSQL : statement := InsertOnConflictDoNothing.
Definition bulkSelectEventJSONSQL : statement := SelectWhereInOrderByAsc [1].

(** Modelled from the spec: [common.QueryVariadic] is not among the sources;
    it is the "SQL-placeholder-expansion trick for variable-length IN (...)
    lists" of spec section 9: [QueryVariadic n] is the text
    [($1, $2, ..., $n)]. *)
Definition QueryVariadic (count : nat) : list nat := seq 1 count.

(** [strings.Replace(sql, "($1)", new, 1)] on the statements above: only the
    select has the text [($1)] in it (the insert has [($1, $2)]). *)
Definition replace_dollar1 (sql : statement) (new : list nat) : statement :=
  match sql with
  | SelectWhereInOrderByAsc [1] => SelectWhereInOrderByAsc new
  | _ => sql
  end.

(** The rows of [roomserver_event_json]: [event_nid] is the primary key, so
    the table is a finite map from [event_nid] to [event_json]. *)
Abbreviation table := (gmap Z bytes).

Abbreviation row := (Z * bytes)%type.

Definition nid_le : relation row := λ r1 r2, (r1.1 ≤ r2.1)%Z.

Global Instance nid_le_dec : RelDecision nid_le.
Proof. intros r1 r2. unfold nid_le. apply _. Defined.

(** [INSERT ... ON CONFLICT DO NOTHING]: a row whose key is taken is left
    as it is. *)
Definition insert_or_ignore (nid : Z) (json : bytes) (t : table) : table :=
  match t !! nid with
  | Some _ => t
  | None => <[nid := json]> t
  end.

(** [SELECT ... WHERE event_nid IN (...) ORDER BY event_nid ASC]. *)
Definition select_in (t : table) (wanted : list Z) : list row :=
  merge_sort nid_le (filter (λ r : row, r.1 ∈ wanted) (map_to_list t)).

(** The number of arguments a statement wants: its highest placeholder. *)
Definition NumInput (stmt : statement) : nat :=
  match stmt with
  | CreateTableIfNotExists => 0
  | InsertOnConflictDoNothing => 2
  | SelectWhereInOrderByAsc ph => foldr Nat.max 0 ph
  end.

(** The value bound to placeholder [$p]. *)
Definition bound (args : list value) (p : nat) : option value :=
  match p with
  | O => None
  | S q => args !! q
  end.

Definition bound_integer (args : list value) (p : nat) : option Z :=
  match bound args p with
  | Some (VInteger z) => Some z
  | _ => None
  end.

(** One statement on the table: the table after it and the rows it yields.
    Only the argument shapes this store produces are given a meaning. *)
Definition engine (stmt : statement) (args : list value) (t : table)
  : error + (table * list row) :=
  if decide (length args = NumInput stmt) then
    match stmt with
    | CreateTableIfNotExists => inr (t, [])
    | InsertOnConflictDoNothing =>
        match args with
        | [VInteger nid; VBlob json] => inr (insert_or_ignore nid json t, [])
        | _ => inl (ErrDriver "datatype mismatch")
        end
    | SelectWhereInOrderByAsc ph =>
        match mapM (bound_integer args) ph with
        | Some zs => inr (t, select_in t zs)
        | None => inl (ErrDriver "datatype mismatch")
        end
    end
  else inl (ErrDriver "sql: wrong number of arguments").

(** ** The driver *)

(** What goes wrong below the store during one call: each field is the
    error the named call of [database/sql] fails with, if it does, for
    whatever reason of the connection, the driver or the engine (a lost
    connection, a locked database, a limit of the engine).
    [next_fault = Some (i, e)]: fetching row [i] fails with [e];
    [scan_fault = Some (i, e)]: [Scan] of row [i] fails with [e];
    [close_fault = Some e]: closing rows that are still open fails with [e]. *)
Record driver : Type := mkDriver {
  exec_fault : option error;
  query_fault : option error;
  next_fault : option (nat * error);
  scan_fault : option (nat * error);
  close_fault : option error
}.

Definition healthy : driver := mkDriver None None None None None.

Definition with_close_fault (c : option error) (env : driver) : driver :=
  mkDriver (exec_fault env) (query_fault env) (next_fault env) (scan_fault env) c.

(** The database behind the transaction handle, and the log. *)
Record DB : Type := mkDB {
  roomserver_event_json : table;
  logged : list string
}.

Definition with_table (t : table) (db : DB) : DB := mkDB t (logged db).
Definition with_log (msg : string) (db : DB) : DB :=
  mkDB (roomserver_event_json db) (msg :: logged db).

(** The first thing that stops the driver at step [0], if any: the context,
    then a fault of its own. *)
Definition interrupted (ctx : Context) (fault : option error) : option error :=
  match ctx_Err ctx 0 with
  | Some e => Some e
  | None => fault
  end.

(** [stmt.ExecContext(ctx, args...)]: the error, and the database after. *)
Definition ExecContext (env : driver) (ctx : Context) (stmt : statement)
    (args : list value) (db : DB) : option error * DB :=
  match interrupted ctx (exec_fault env) with
  | Some e => (Some e, db)
  | None =>
      match engine stmt args (roomserver_event_json db) with
      | inl e => (Some e, db)
      | inr (t, _) => (None, with_table t db)
      end
  end.

(** [txn.QueryContext(ctx, query, args...)]: the rows still to fetch, or the
    error; and the database after. *)
Definition QueryContext (env : driver) (ctx : Context) (stmt : statement)
    (args : list value) (db : DB) : (error + list row) * DB :=
  match interrupted ctx (query_fault env) with
  | Some e => (inl e, db)
  | None =>
      match engine stmt args (roomserver_event_json db) with
      | inl e => (inl e, db)
      | inr (t, rows) => (inr rows, with_table t db)
      end
  end.

(** Why [rows.Next()] for row [i] returns false although the row may be
    there: the context is done, or the fetch fails.  This is what
    [rows.Err()] reports afterwards. *)
Definition next_stopped (env : driver) (ctx : Context) (i : nat) : option error :=
  match ctx_Err ctx (S i) with
  | Some e => Some e
  | None =>
      match next_fault env with
      | Some (k, e) => if decide (k = i) then Some e else None
      | None => None
      end
  end.

(** The error of [rows.Scan] on row [i], if it fails. *)
Definition scan_failed (env : driver) (i : nat) : option error :=
  match scan_fault env with
  | Some (k, e) => if decide (k = i) then Some e else None
  | None => None
  end.

(** [rows.Close()].  When [rows.Next()] returns false it has closed the rows
    itself, and an error of that closing is dropped; closing them again does
    nothing and returns nil.  Rows that are still open are closed now, and
    that may fail. *)
Definition Rows_Close (env : driver) (closed : bool) : option error :=
  if closed then None else close_fault env.

(** Modelled from the spec: [common.CloseAndLogIfError] is not among the
    sources; it is the "scoped-acquisition cursor abstraction guaranteeing
    release on all exit paths" of spec section 6.  By its name and the
    message it is given, an error that [Close] returns, here [closeErr], is
    logged and goes no further. *)
Definition CloseAndLogIfError (closeErr : option error) (message : string) (db : DB) : DB :=
  match closeErr with
  | Some _ => with_log message db
  | None => db
  end.

(** ** The store *)

(** [insertEventJSON(ctx, txn, eventNID, eventJSON) error].
    [common.TxStmt] ties the prepared statement to the transaction; the
    statement it runs is the same. *)
Definition insertEventJSON (env : driver) (ctx : Context)
    (eventNID : EventNID) (eventJSON : bytes) (txn : DB) : option error * DB :=
  ExecContext env ctx insertEventJSONSQL
    [VInteger (int64_of_EventNID eventNID); VBlob eventJSON] txn.

(** What a call of [bulkSelectEventJSON] comes to: its two results, or a
    run-time panic on an index out of range. *)
Inductive outcome : Type :=
| Return (results : option (list eventJSONPair)) (err : option error)
| PanicIndexOutOfRange.

(** The loop [for ; rows.Next(); i++ { ... }] and the [return] after it,
    on the rows still to fetch. *)
Fixpoint read_rows (env : driver) (ctx : Context) (pending : list row)
    (results : list eventJSONPair) (i : nat) : outcome :=
  match next_stopped env ctx i with
  | Some _ => Return (Some (take i results)) None
  | None =>
      match pending with
      | [] => Return (Some (take i results)) None
      | (eventNID, eventJSON) :: pending' =>
          if decide (i < length results) then
            match scan_failed env i with
            | Some err => Return None (Some err)
            | None =>
                read_rows env ctx pending'
                  (<[i := mkPair (EventNID_of_int64 eventNID) eventJSON]> results)
                  (S i)
            end
          else PanicIndexOutOfRange
      end
  end.

(** How the loop leaves the rows.  It ends when [rows.Next()] returns false,
    which closes the rows, and a result sequence is returned then; the return
    on a failed [Scan], and a panic, leave them open for the deferred close. *)
Definition closed_by_Next (out : outcome) : bool :=
  match out with
  | Return (Some _) _ => true
  | Return None _ | PanicIndexOutOfRange => false
  end.

(** The message of the deferred [common.CloseAndLogIfError]. *)
Definition close_message : string := "bulkSelectEventJSON: rows.close() failed".

(** [bulkSelectEventJSON(ctx, txn, eventNIDs) ([]eventJSONPair, error)] *)
Definition bulkSelectEventJSON (env : driver) (ctx : Context)
    (eventNIDs : list EventNID) (txn : DB) : outcome * DB :=
  let iEventNIDs := (λ v, VInteger (int64_of_EventNID v)) <$> eventNIDs in
  let selectOrig :=
    replace_dollar1 bulkSelectEventJSONSQL (QueryVariadic (length iEventNIDs)) in
  match QueryContext env ctx selectOrig iEventNIDs txn with
  | (inl err, txn') => (Return None (Some err), txn')
  | (inr rows, txn') =>
      let results := replicate (length eventNIDs) zero_pair in
      let out := read_rows env ctx rows results 0 in
      (out, CloseAndLogIfError (Rows_Close env (closed_by_Next out)) close_message txn')
  end.

(** ** Small runs *)

Definition json_a : bytes := [Byte.x61].
Definition json_b : bytes := [Byte.x62].
Definition json_c : bytes := [Byte.x63].

Definition empty_db : DB := mkDB ∅ [].

Definition env_close_fails : driver :=
  with_close_fault (Some (ErrDriver "database is locked")) healthy.

Definition env_scan_fails : driver :=
  mkDriver None None None (Some (1, ErrDriver "sql: Scan error")) None.

Definition env_next_fails : driver :=
  mkDriver None None (Some (1, ErrDriver "disk I/O error")) None None.

Definition env_scan_and_close_fail : driver :=
  with_close_fault (Some (ErrDriver "database is locked")) env_scan_fails.

Definition db_abc : DB :=
  let db1 := (insertEventJSON healthy Background 1%Z json_a empty_db).2 in
  let db2 := (insertEventJSON healthy Background 3%Z json_c db1).2 in
  (insertEventJSON healthy Background 2%Z json_b db2).2.

Definition db_7c : DB := mkDB {[ 7%Z := json_c ]} [].

(** ** Vocabulary of the statements below *)

(** What the loop stores for a fetched row. *)
Definition to_pair (r : row) : eventJSONPair :=
  mkPair (EventNID_of_int64 r.1) r.2.

(** For identifiers that are 64-bit values the conversions change nothing:
    the pair stored for a row is the row. *)
Definition plain_pair (r : row) : eventJSONPair := mkPair r.1 r.2.

(** A call of the bulk select for [n] identifiers that nothing gets in the
    way of: the driver runs the query, the context is not done and no fetch
    fails up to the one that finds the rows exhausted, and no [Scan] fails.
    Closing the rows may still fail. *)
Definition undisturbed (env : driver) (ctx : Context) (n : nat) : Prop :=
  interrupted ctx (query_fault env) = None
  ∧ (∀ j, j ≤ n → next_stopped env ctx j = None)
  ∧ (∀ j, j < n → scan_failed env j = None).

(** The failures the function looks at: the query fails, or the [Scan] of a
    row that the loop gets to fails. *)
Inductive query_or_scan_fails (env : driver) (ctx : Context) (rows : list row)
  : error → Prop :=
| QueryFails (e : error) :
    interrupted ctx (query_fault env) = Some e →
    query_or_scan_fails env ctx rows e
| ScanFails (i : nat) (e : error) :
    interrupted ctx (query_fault env) = None →
    i < length rows →
    (∀ j, j ≤ i → next_stopped env ctx j = None) →
    (∀ j, j < i → scan_failed env j = None) →
    scan_failed env i = Some e →
    query_or_scan_fails env ctx rows e.

(** The two operations the store offers, each with the driver and the
    context of that call. *)
Inductive call : Type :=
| CallInsert (env : driver) (ctx : Context) (eventNID : EventNID) (eventJSON : bytes)
| CallBulkSelect (env : driver) (ctx : Context) (eventNIDs : list EventNID).

Definition after_call (txn : DB) (c : call) : DB :=
  match c with
  | CallInsert env ctx eventNID eventJSON =>
      (insertEventJSON env ctx eventNID eventJSON txn).2
  | CallBulkSelect env ctx eventNIDs =>
      (bulkSelectEventJSON env ctx eventNIDs txn).2
  end.

Definition after_calls (txn : DB) (cs : list call) : DB := foldl after_call txn cs.

(** A batch of events stored one after the other, as a caller of the store
    does for the events of one request. *)
Definition insert_calls (env : driver) (ctx : Context)
    (events : list (EventNID * bytes)) : list call :=
  (λ ev, CallInsert env ctx ev.1 ev.2) <$> events.

Definition db_of (txn : DB) : table := roomserver_event_json txn.

(** * Properties *)

(** The scenario of spec section 8: three inserts out of order, then a bulk
    select of the three and of an identifier that is not stored. *)
Example scenario_spec_section_8 :
  (bulkSelectEventJSON healthy Background [3; 1; 2; 99]%Z db_abc).1
  = Return (Some [mkPair 1%Z json_a; mkPair 2%Z json_b; mkPair 3%Z json_c]) None.
Proof. vm_compute. reflexivity. Qed.

(** ** Integers *)

Lemma wrap64_id (z : Z) : in_int64 z → wrap64 z = z.
Proof.
  unfold in_int64, wrap64. intros Hz.
  rewrite Z.mod_small by lia. lia.
Qed.

Lemma wrap64_in_int64 (z : Z) : in_int64 (wrap64 z).
Proof.
  unfold in_int64, wrap64.
  pose proof (Z.mod_pos_bound (z + 2 ^ 63) (2 ^ 64)) as Hb. lia.
Qed.

Lemma wrap64_fmap_id (zs : list Z) : Forall in_int64 zs → wrap64 <$> zs = zs.
Proof.
  induction 1 as [|z zs Hz _ IH]; [done|].
  csimpl. by rewrite wrap64_id, IH.
Qed.

(** ** Placeholders and their arguments *)

Lemma NumInput_seq (j n : nat) :
  foldr Nat.max 0 (seq j n) = match n with O => 0 | S m => j + m end.
Proof.
  revert j. induction n as [|n IH]; intros j; [done|].
  cbn [seq foldr]. rewrite IH. destruct n; lia.
Qed.

Lemma NumInput_QueryVariadic (n : nat) :
  NumInput (SelectWhereInOrderByAsc (QueryVariadic n)) = n.
Proof. unfold QueryVariadic. cbn [NumInput]. rewrite NumInput_seq. by destruct n. Qed.

Lemma bound_QueryVariadic (zs : list Z) :
  mapM (bound_integer (VInteger <$> zs)) (QueryVariadic (length zs)) = Some zs.
Proof.
  apply mapM_Some, Forall2_same_length_lookup_2.
  - unfold QueryVariadic. by rewrite length_seq.
  - intros i p z Hp Hz. unfold QueryVariadic in Hp.
    apply lookup_seq in Hp as [-> _].
    unfold bound_integer. cbn [Nat.add bound].
    by rewrite list_lookup_fmap, Hz.
Qed.

Lemma replace_dollar1_select (new : list nat) :
  replace_dollar1 bulkSelectEventJSONSQL new = SelectWhereInOrderByAsc new.
Proof. reflexivity. Qed.

(** The statement [bulkSelectEventJSON] sends always binds: the engine runs
    the select over the identifiers asked for and leaves the table alone. *)
Lemma engine_bulk_select (zs : list Z) (t : table) :
  engine (replace_dollar1 bulkSelectEventJSONSQL (QueryVariadic (length (VInteger <$> zs))))
    (VInteger <$> zs) t = inr (t, select_in t zs).
Proof.
  rewrite replace_dollar1_select. unfold engine.
  rewrite NumInput_QueryVariadic, decide_True by done.
  rewrite length_fmap. by rewrite bound_QueryVariadic.
Qed.

(** ** The select *)

Lemma elem_of_select_in (t : table) (zs : list Z) (k : Z) (v : bytes) :
  (k, v) ∈ select_in t zs ↔ t !! k = Some v ∧ k ∈ zs.
Proof.
  unfold select_in. rewrite merge_sort_Permutation.
  rewrite list_elem_of_filter, elem_of_map_to_list. cbn [fst]. tauto.
Qed.

Lemma NoDup_select_in_keys (t : table) (zs : list Z) :
  NoDup (select_in t zs).*1.
Proof.
  apply NoDup_fmap_fst.
  - intros k v1 v2 [H1 _]%elem_of_select_in [H2 _]%elem_of_select_in. congruence.
  - unfold select_in. rewrite merge_sort_Permutation.
    apply NoDup_filter, NoDup_map_to_list.
Qed.

Lemma select_in_keys_wanted (t : table) (zs : list Z) (k : Z) :
  k ∈ (select_in t zs).*1 → k ∈ zs.
Proof.
  intros ([k' v] & -> & Hin)%list_elem_of_fmap.
  by apply elem_of_select_in in Hin as [_ ?].
Qed.

(** The unique key on [event_nid]: a select yields at most one row for
    each identifier asked for. *)
Lemma length_select_in (t : table) (zs : list Z) :
  length (select_in t zs) ≤ length (remove_dups zs).
Proof.
  rewrite <-(length_fmap fst). apply submseteq_length, NoDup_submseteq.
  - apply NoDup_select_in_keys.
  - intros k Hk. apply elem_of_remove_dups. by eapply select_in_keys_wanted.
Qed.

Lemma length_remove_dups_le {A} `{EqDecision A} (l : list A) :
  length (remove_dups l) ≤ length l.
Proof.
  apply submseteq_length, NoDup_submseteq; [apply NoDup_remove_dups|].
  intros x. by rewrite elem_of_remove_dups.
Qed.

Global Instance nid_le_trans : Transitive nid_le.
Proof. intros r1 r2 r3. unfold nid_le. lia. Qed.

Global Instance nid_le_total : Total nid_le.
Proof. intros r1 r2. unfold nid_le. lia. Qed.

Lemma StronglySorted_le_NoDup_lt (ks : list Z) :
  StronglySorted Z.le ks → NoDup ks → StronglySorted Z.lt ks.
Proof.
  induction 1 as [|k ks Hs IH Hall]; intros Hnd; [constructor|].
  apply NoDup_cons in Hnd as [Hk Hnd].
  constructor; [by apply IH|].
  rewrite Forall_forall in Hall. apply Forall_forall. intros k' Hk'.
  assert (k ≠ k') by (intros ->; done).
  specialize (Hall k' Hk'). lia.
Qed.

(** [ORDER BY event_nid ASC] on a unique key: strictly ascending. *)
Lemma select_in_ascending (t : table) (zs : list Z) :
  StronglySorted Z.lt (select_in t zs).*1.
Proof.
  apply StronglySorted_le_NoDup_lt; [|apply NoDup_select_in_keys].
  apply (StronglySorted_fmap fst nid_le Z.le).
  - intros r1 r2 Hr. exact Hr.
  - apply Sorted_StronglySorted; [apply _|].
    unfold select_in. apply Sorted_merge_sort. apply _.
Qed.

(** ** The read loop *)

Lemma take_S_insert {A} (l : list A) (i : nat) (x : A) :
  i < length l → take (S i) (<[i := x]> l) = take i l ++ [x].
Proof.
  intros Hi. rewrite (take_S_r _ _ x) by by apply list_lookup_insert_eq.
  by rewrite take_insert_ge.
Qed.

(** The loop either returns the slots of the first [n] rows it was given
    (all of them, or fewer when [Next] stopped early), or the error of a
    failed [Scan].  With room for every row it does not panic. *)
Lemma read_rows_cases env ctx (pending : list row) results (i : nat) :
  i + length pending ≤ length results →
  (∃ n, n ≤ length pending ∧
     (n < length pending → is_Some (next_stopped env ctx (i + n))) ∧
     read_rows env ctx pending results i
     = Return (Some (take i results ++ (to_pair <$> take n pending))) None)
  ∨ (∃ k e, k < length pending ∧ scan_failed env (i + k) = Some e ∧
       read_rows env ctx pending results i = Return None (Some e)).
Proof.
  revert results i.
  induction pending as [|[nid json] pending IH]; intros results i Hlen; cbn [read_rows].
  - left. exists 0. split; [done|]. split; [cbn; lia|].
    cbn. rewrite app_nil_r. by destruct (next_stopped env ctx i).
  - cbn [length] in Hlen.
    destruct (next_stopped env ctx i) as [e|] eqn:Hnext.
    { left. exists 0. split; [lia|]. split.
      - intros _. rewrite Nat.add_0_r, Hnext. by eexists.
      - cbn. by rewrite app_nil_r. }
    rewrite decide_True by lia.
    destruct (scan_failed env i) as [e|] eqn:Hscan.
    { right. exists 0, e. rewrite Nat.add_0_r. split; [cbn; lia|done]. }
    destruct (IH (<[i := mkPair (EventNID_of_int64 nid) json]> results) (S i))
      as [(n & Hn & Hstop & ->)|(k & e & Hk & He & ->)].
    + rewrite length_insert. lia.
    + left. exists (S n). split; [cbn; lia|]. split.
      * cbn [length]. intros Hlt. rewrite Nat.add_succ_r. apply Hstop. lia.
      * rewrite take_S_insert by lia. cbn [take fmap list_fmap].
        by rewrite <-app_assoc.
    + right. exists (S k), e. rewrite Nat.add_succ_r. split; [cbn; lia|done].
Qed.

(** With nothing in its way the loop returns every row. *)
Lemma read_rows_undisturbed env ctx (pending : list row) results (i : nat) :
  (∀ j, j ≤ length pending → next_stopped env ctx (i + j) = None) →
  (∀ j, j < length pending → scan_failed env (i + j) = None) →
  i + length pending ≤ length results →
  read_rows env ctx pending results i
  = Return (Some (take i results ++ (to_pair <$> pending))) None.
Proof.
  intros Hnext Hscan Hlen.
  destruct (read_rows_cases env ctx pending results i Hlen)
    as [(n & Hn & Hstop & ->)|(k & e & Hk & He & _)].
  - destruct (decide (n < length pending)) as [Hlt|Hge].
    + destruct (Hstop Hlt) as [e He]. rewrite Hnext in He by lia. done.
    + rewrite (take_ge pending) by lia. done.
  - rewrite Hscan in He by done. done.
Qed.

(** ** The two functions, unfolded *)

Lemma with_table_same (db : DB) : with_table (roomserver_event_json db) db = db.
Proof. by destruct db. Qed.

Lemma bulkSelectEventJSON_unfold env ctx (eventNIDs : list EventNID) (txn : DB) :
  bulkSelectEventJSON env ctx eventNIDs txn =
  match interrupted ctx (query_fault env) with
  | Some e => (Return None (Some e), txn)
  | None =>
      (read_rows env ctx
         (select_in (roomserver_event_json txn) (wrap64 <$> eventNIDs))
         (replicate (length eventNIDs) zero_pair) 0,
       CloseAndLogIfError
         (Rows_Close env (closed_by_Next
            (read_rows env ctx
               (select_in (roomserver_event_json txn) (wrap64 <$> eventNIDs))
               (replicate (length eventNIDs) zero_pair) 0)))
         close_message txn)
  end.
Proof.
  unfold bulkSelectEventJSON, QueryContext.
  destruct (interrupted ctx (query_fault env)) as [e|]; [done|].
  replace ((λ v, VInteger (int64_of_EventNID v)) <$> eventNIDs)
    with (VInteger <$> (wrap64 <$> eventNIDs))
    by (by rewrite <-list_fmap_compose).
  rewrite engine_bulk_select, with_table_same. done.
Qed.

Lemma insertEventJSON_unfold env ctx (eventNID : EventNID) (eventJSON : bytes) (txn : DB) :
  insertEventJSON env ctx eventNID eventJSON txn =
  match interrupted ctx (exec_fault env) with
  | Some e => (Some e, txn)
  | None =>
      (None, with_table
               (insert_or_ignore (wrap64 eventNID) eventJSON (roomserver_event_json txn))
               txn)
  end.
Proof.
  unfold insertEventJSON, ExecContext.
  by destruct (interrupted ctx (exec_fault env)).
Qed.

(** A select always fits the slice the function allocates for it. *)
Lemma select_in_fits (t : table) (eventNIDs : list EventNID) :
  0 + length (select_in t (wrap64 <$> eventNIDs))
  ≤ length (replicate (length eventNIDs) zero_pair).
Proof.
  rewrite length_replicate. cbn.
  etrans; [apply length_select_in|].
  etrans; [apply length_remove_dups_le|]. by rewrite length_fmap.
Qed.

(** The whole call when nothing fails: the rows of the select, as pairs. *)
Lemma bulkSelectEventJSON_delivered env ctx (eventNIDs : list EventNID) (txn : DB) :
  undisturbed env ctx (length eventNIDs) →
  (bulkSelectEventJSON env ctx eventNIDs txn).1
  = Return (Some (to_pair <$>
       select_in (roomserver_event_json txn) (wrap64 <$> eventNIDs))) None.
Proof.
  intros (Hquery & Hnext & Hscan). rewrite bulkSelectEventJSON_unfold, Hquery.
  cbn [fst].
  pose proof (select_in_fits (roomserver_event_json txn) eventNIDs) as Hfits.
  rewrite read_rows_undisturbed; [done|..|done].
  - intros j Hj. apply Hnext. rewrite length_replicate in Hfits. lia.
  - intros j Hj. apply Hscan. rewrite length_replicate in Hfits. lia.
Qed.

Lemma to_pair_select_in (t : table) (zs : list Z) :
  Forall in_int64 zs →
  to_pair <$> select_in t zs = plain_pair <$> select_in t zs.
Proof.
  intros Hzs. apply Forall_fmap_ext, Forall_forall. intros [k v] Hin.
  apply elem_of_select_in in Hin as [_ Hk].
  rewrite Forall_forall in Hzs.
  unfold to_pair, plain_pair, EventNID_of_int64. cbn [fst snd].
  by rewrite wrap64_id by by apply Hzs.
Qed.

Lemma plain_pair_keys (rows : list row) :
  pair_EventNID <$> (plain_pair <$> rows) = rows.*1.
Proof. rewrite <-list_fmap_compose. by apply list_fmap_ext. Qed.

Lemma elem_of_plain_pair (rows : list row) (nid : Z) (json : bytes) :
  mkPair nid json ∈ plain_pair <$> rows ↔ (nid, json) ∈ rows.
Proof.
  rewrite list_elem_of_fmap. split.
  - intros ([k v] & Heq & Hin). by injection Heq as -> ->.
  - intros Hin. by exists (nid, json).
Qed.

Lemma select_in_nil (t : table) : select_in t [] = [].
Proof.
  apply length_zero_iff_nil.
  pose proof (length_select_in t []) as Hlen. cbn in Hlen. lia.
Qed.

Lemma select_in_singleton (t : table) (k : Z) (v : bytes) :
  t !! k = Some v → select_in t [k] = [(k, v)].
Proof.
  intros Hkv.
  assert ((k, v) ∈ select_in t [k]) as Hin.
  { apply elem_of_select_in. split; [done|]. apply list_elem_of_singleton. done. }
  pose proof (length_select_in t [k]) as Hlen.
  pose proof (length_remove_dups_le [k]) as Hone.
  destruct (select_in t [k]) as [|r [|r' rows]].
  - by apply elem_of_nil in Hin.
  - apply list_elem_of_singleton in Hin. by rewrite Hin.
  - cbn [length] in Hlen, Hone. lia.
Qed.

(** ** The bulk select *)

(** C1: whatever identifiers are asked for, in any order and with
    repetitions, and whatever the table holds, a bulk select that the driver
    carries out returns exactly the stored rows among them, each once, in
    strictly ascending order of identifier. *)
Theorem bulkSelectEventJSON_exact_ascending
    env ctx (eventNIDs : list EventNID) (txn : DB) :
  undisturbed env ctx (length eventNIDs) →
  Forall in_int64 eventNIDs →
  ∃ results,
    (bulkSelectEventJSON env ctx eventNIDs txn).1 = Return (Some results) None
    ∧ StronglySorted Z.lt (pair_EventNID <$> results)
    ∧ NoDup (pair_EventNID <$> results)
    ∧ ∀ nid json,
        mkPair nid json ∈ results
        ↔ nid ∈ eventNIDs ∧ roomserver_event_json txn !! nid = Some json.
Proof.
  intros Henv Hids. eexists. split; [by apply bulkSelectEventJSON_delivered|].
  rewrite wrap64_fmap_id, to_pair_select_in, plain_pair_keys by done.
  split; [apply select_in_ascending|].
  split; [apply NoDup_select_in_keys|].
  intros nid json. rewrite elem_of_plain_pair, elem_of_select_in. tauto.
Qed.

Lemma bulkSelectEventJSON_exact_ascending_run :
  ∃ results,
    (bulkSelectEventJSON healthy Background [3; 1; 2; 99; 1]%Z db_abc).1
    = Return (Some results) None
    ∧ StronglySorted Z.lt (pair_EventNID <$> results)
    ∧ NoDup (pair_EventNID <$> results)
    ∧ ∀ nid json,
        mkPair nid json ∈ results
        ↔ nid ∈ [3; 1; 2; 99; 1]%Z ∧ roomserver_event_json db_abc !! nid = Some json.
Proof.
  apply bulkSelectEventJSON_exact_ascending.
  - split; [reflexivity|]. split; intros j _; reflexivity.
  - repeat constructor; unfold in_int64; lia.
Defined.

(** C4: identifiers without a stored row are left out without an error and
    without a stand-in entry; every entry returned is a stored row, and there
    are at most as many entries as distinct identifiers asked for. *)
Theorem bulkSelectEventJSON_omits_missing
    env ctx (eventNIDs : list EventNID) (txn : DB) :
  undisturbed env ctx (length eventNIDs) →
  Forall in_int64 eventNIDs →
  ∃ results,
    (bulkSelectEventJSON env ctx eventNIDs txn).1 = Return (Some results) None
    ∧ (∀ nid, nid ∈ eventNIDs → roomserver_event_json txn !! nid = None →
         nid ∉ pair_EventNID <$> results)
    ∧ Forall (λ p, roomserver_event_json txn !! pair_EventNID p
                   = Some (pair_EventJSON p)) results
    ∧ length results ≤ length (remove_dups eventNIDs).
Proof.
  intros Henv Hids. eexists. split; [by apply bulkSelectEventJSON_delivered|].
  rewrite wrap64_fmap_id, to_pair_select_in by done.
  split; [|split].
  - intros nid _ Hnone. rewrite plain_pair_keys.
    intros ([k v] & -> & Hin)%list_elem_of_fmap.
    apply elem_of_select_in in Hin as [Hsome _]. cbn [fst] in Hnone. unfold EventNID in *. congruence.
  - apply Forall_forall. intros [nid json] Hin.
    apply elem_of_plain_pair, elem_of_select_in in Hin as [Hsome _]. done.
  - rewrite length_fmap. apply length_select_in.
Qed.

Lemma bulkSelectEventJSON_omits_missing_run :
  ∃ results,
    (bulkSelectEventJSON env_close_fails (DoneBefore 9 ByDeadline) [1; 99]%Z db_abc).1
    = Return (Some results) None
    ∧ (∀ nid, nid ∈ [1; 99]%Z → roomserver_event_json db_abc !! nid = None →
         nid ∉ pair_EventNID <$> results)
    ∧ Forall (λ p, roomserver_event_json db_abc !! pair_EventNID p
                   = Some (pair_EventJSON p)) results
    ∧ length results ≤ length (remove_dups [1; 99]%Z).
Proof.
  apply bulkSelectEventJSON_omits_missing.
  - split; [reflexivity|]. split; intros j Hj; [|reflexivity].
    cbn [length] in Hj. unfold next_stopped, ctx_Err.
    rewrite decide_False by lia. reflexivity.
  - repeat constructor; unfold in_int64; lia.
Defined.

(** C5: with no identifiers to look up, a bulk select whose query the driver
    runs returns the empty sequence and no error, whatever the table holds. *)
Theorem bulkSelectEventJSON_empty env ctx (txn : DB) :
  interrupted ctx (query_fault env) = None →
  (bulkSelectEventJSON env ctx [] txn).1 = Return (Some []) None.
Proof.
  intros Hq. rewrite bulkSelectEventJSON_unfold, Hq.
  cbn [fst fmap list_fmap]. rewrite select_in_nil. cbn.
  by destruct (next_stopped env ctx 0).
Qed.

Lemma bulkSelectEventJSON_empty_run :
  (bulkSelectEventJSON healthy Background [] db_abc).1 = Return (Some []) None.
Proof. apply bulkSelectEventJSON_empty. reflexivity. Defined.

(** C9: the slot [results[i]] written in the loop always exists: the query
    yields at most one row for each identifier passed in, so [i] stays below
    the length the slice was made with and the call never panics, whatever
    the driver and the context do. *)
Theorem bulkSelectEventJSON_index_in_bounds
    env ctx (eventNIDs : list EventNID) (txn : DB) :
  length (select_in (roomserver_event_json txn) (int64_of_EventNID <$> eventNIDs))
  ≤ length eventNIDs
  ∧ (bulkSelectEventJSON env ctx eventNIDs txn).1 ≠ PanicIndexOutOfRange.
Proof.
  pose proof (select_in_fits (roomserver_event_json txn) eventNIDs) as Hfits.
  split.
  - rewrite length_replicate in Hfits. exact Hfits.
  - rewrite bulkSelectEventJSON_unfold.
    destruct (interrupted ctx (query_fault env)); [done|]. cbn [fst].
    destruct (read_rows_cases env ctx _ _ _ Hfits)
      as [(n & _ & _ & ->)|(k & e & _ & _ & ->)]; done.
Qed.

Lemma CloseAndLogIfError_table (closeErr : option error) (message : string) (db : DB) :
  roomserver_event_json (CloseAndLogIfError closeErr message db)
  = roomserver_event_json db.
Proof. by destruct closeErr. Qed.

Lemma bulkSelectEventJSON_after env ctx (eventNIDs : list EventNID) (txn : DB) :
  (bulkSelectEventJSON env ctx eventNIDs txn).2 = txn
  ∨ (bulkSelectEventJSON env ctx eventNIDs txn).2
    = CloseAndLogIfError (close_fault env) close_message txn.
Proof.
  rewrite bulkSelectEventJSON_unfold.
  destruct (interrupted ctx (query_fault env)); [by left|]. cbn [snd].
  destruct (closed_by_Next _); [by left|by right].
Qed.

(** C10: a bulk select, whether it succeeds or fails, leaves the table as
    it found it. *)
Theorem bulkSelectEventJSON_read_only
    env ctx (eventNIDs : list EventNID) (txn : DB) :
  roomserver_event_json (bulkSelectEventJSON env ctx eventNIDs txn).2
  = roomserver_event_json txn.
Proof.
  destruct (bulkSelectEventJSON_after env ctx eventNIDs txn) as [-> | ->];
    [done|apply CloseAndLogIfError_table].
Qed.

(** ** The insert *)

Lemma insert_or_ignore_taken (nid : Z) (json old : bytes) (t : table) :
  t !! nid = Some old → insert_or_ignore nid json t = t.
Proof. intros Hold. unfold insert_or_ignore. by rewrite Hold. Qed.

Lemma insert_or_ignore_free (nid : Z) (json : bytes) (t : table) :
  t !! nid = None → insert_or_ignore nid json t = <[nid := json]> t.
Proof. intros Hfree. unfold insert_or_ignore. by rewrite Hfree. Qed.

(** A stored row survives any insert. *)
Lemma insert_or_ignore_keeps (nid k : Z) (json v : bytes) (t : table) :
  t !! k = Some v → insert_or_ignore nid json t !! k = Some v.
Proof.
  intros Hkv. unfold insert_or_ignore.
  destruct (t !! nid) eqn:Hnid; [done|].
  rewrite lookup_insert_ne; [done|]. intros ->. congruence.
Qed.

Lemma insert_or_ignore_is_Some (nid : Z) (json : bytes) (t : table) :
  is_Some (insert_or_ignore nid json t !! nid).
Proof.
  unfold insert_or_ignore. destruct (t !! nid) eqn:Hnid.
  - rewrite Hnid. by eexists.
  - rewrite lookup_insert_eq. by eexists.
Qed.

(** An insert the driver carries out reports no error. *)
Lemma insertEventJSON_done env ctx (eventNID : EventNID) (eventJSON : bytes) (txn : DB) :
  interrupted ctx (exec_fault env) = None →
  insertEventJSON env ctx eventNID eventJSON txn
  = (None, with_table
             (insert_or_ignore (wrap64 eventNID) eventJSON (roomserver_event_json txn))
             txn).
Proof.
  intros Hexec. by rewrite insertEventJSON_unfold, Hexec.
Qed.

(** An insert that is stopped, by the context or by a fault of the driver,
    returns that error and writes nothing. *)
Lemma insertEventJSON_stopped env ctx (eventNID : EventNID) (eventJSON : bytes)
    (txn : DB) (e : error) :
  interrupted ctx (exec_fault env) = Some e →
  insertEventJSON env ctx eventNID eventJSON txn = (Some e, txn).
Proof. intros Hstop. by rewrite insertEventJSON_unfold, Hstop. Qed.

(** C2, as stated, fails on a table that already has a row for the
    identifier: both inserts succeed and the payload stored afterwards is the
    older one, not the payload of the first of the two calls. *)
Lemma insertEventJSON_twice_on_taken_id :
  json_a ≠ json_b
  ∧ (insertEventJSON healthy Background 7%Z json_a db_7c).1 = None
  ∧ (insertEventJSON healthy Background 7%Z json_b
       (insertEventJSON healthy Background 7%Z json_a db_7c).2).1 = None
  ∧ roomserver_event_json
      (insertEventJSON healthy Background 7%Z json_b
         (insertEventJSON healthy Background 7%Z json_a db_7c).2).2 !! 7%Z
    = Some json_c
  ∧ Some json_c ≠ Some json_a.
Proof. repeat split; try discriminate; vm_compute; reflexivity. Qed.

(** C2, amended: two inserts for one identifier that the driver carries out
    both succeed, and the second changes nothing in the table.  When the
    identifier had no row before the first call, the payload stored after
    both is the first one's; when it had one, that row is still there. *)
Theorem insertEventJSON_twice
    env1 ctx1 env2 ctx2 (eventNID : EventNID) (payloadA payloadB : bytes) (txn : DB) :
  in_int64 eventNID →
  interrupted ctx1 (exec_fault env1) = None →
  interrupted ctx2 (exec_fault env2) = None →
  let first := insertEventJSON env1 ctx1 eventNID payloadA txn in
  let second := insertEventJSON env2 ctx2 eventNID payloadB first.2 in
  first.1 = None
  ∧ second.1 = None
  ∧ roomserver_event_json second.2 = roomserver_event_json first.2
  ∧ (roomserver_event_json txn !! eventNID = None →
       roomserver_event_json second.2 !! eventNID = Some payloadA)
  ∧ (∀ old, roomserver_event_json txn !! eventNID = Some old →
       roomserver_event_json second.2 !! eventNID = Some old).
Proof.
  intros Hid H1 H2. cbv zeta.
  rewrite (insertEventJSON_done env1 ctx1) by done. cbn [fst snd].
  rewrite (insertEventJSON_done env2 ctx2) by done. cbn [fst snd].
  rewrite wrap64_id by done. cbn [with_table roomserver_event_json].
  set (t := roomserver_event_json txn).
  assert (insert_or_ignore eventNID payloadB (insert_or_ignore eventNID payloadA t)
          = insert_or_ignore eventNID payloadA t) as Hsame.
  { destruct (insert_or_ignore_is_Some eventNID payloadA t) as [v Hv].
    by apply insert_or_ignore_taken with v. }
  rewrite Hsame. split; [done|]. split; [done|]. split; [done|]. split.
  - intros Hfree. rewrite insert_or_ignore_free by done. apply lookup_insert_eq.
  - intros old Hold. by rewrite (insert_or_ignore_taken _ _ old).
Qed.

Lemma insertEventJSON_twice_run :
  let first := insertEventJSON healthy Background 5%Z json_a db_abc in
  let second := insertEventJSON healthy Background 5%Z json_b first.2 in
  first.1 = None
  ∧ second.1 = None
  ∧ roomserver_event_json second.2 = roomserver_event_json first.2
  ∧ (roomserver_event_json db_abc !! 5%Z = None →
       roomserver_event_json second.2 !! 5%Z = Some json_a)
  ∧ (∀ old, roomserver_event_json db_abc !! 5%Z = Some old →
       roomserver_event_json second.2 !! 5%Z = Some old).
Proof.
  apply insertEventJSON_twice.
  - unfold in_int64. lia.
  - reflexivity.
  - reflexivity.
Defined.

(** C3: on a table without a row for the identifier, an insert followed, in
    the same transaction, by a bulk select of that identifier returns exactly
    the one pair of the identifier and the payload. *)
Theorem insert_then_bulk_select
    env1 ctx1 env2 ctx2 (eventNID : EventNID) (payload : bytes) (txn : DB) :
  in_int64 eventNID →
  roomserver_event_json txn !! eventNID = None →
  interrupted ctx1 (exec_fault env1) = None →
  undisturbed env2 ctx2 1 →
  let inserted := insertEventJSON env1 ctx1 eventNID payload txn in
  inserted.1 = None
  ∧ (bulkSelectEventJSON env2 ctx2 [eventNID] inserted.2).1
    = Return (Some [mkPair eventNID payload]) None.
Proof.
  intros Hid Hfree Hexec Henv. cbv zeta.
  rewrite insertEventJSON_done by done. cbn [fst snd]. split; [done|].
  rewrite bulkSelectEventJSON_delivered by done.
  cbn [with_table roomserver_event_json fmap list_fmap].
  rewrite wrap64_id by done.
  rewrite insert_or_ignore_free by done.
  rewrite (select_in_singleton _ eventNID payload) by apply lookup_insert_eq.
  cbn [fmap list_fmap]. unfold to_pair, EventNID_of_int64. cbn [fst snd].
  by rewrite wrap64_id.
Qed.

Lemma insert_then_bulk_select_run :
  let inserted := insertEventJSON healthy Background 5%Z json_b db_abc in
  inserted.1 = None
  ∧ (bulkSelectEventJSON healthy Background [5%Z] inserted.2).1
    = Return (Some [mkPair 5%Z json_b]) None.
Proof.
  apply insert_then_bulk_select.
  - unfold in_int64. lia.
  - reflexivity.
  - reflexivity.
  - split; [reflexivity|]. split; intros j _; reflexivity.
Defined.

(** ** Sequences of calls *)

Lemma after_call_keeps (c : call) (txn : DB) (k : Z) (v : bytes) :
  roomserver_event_json txn !! k = Some v →
  roomserver_event_json (after_call txn c) !! k = Some v.
Proof.
  intros Hkv. destruct c as [env ctx nid json|env ctx nids]; cbn [after_call].
  - rewrite insertEventJSON_unfold.
    destruct (interrupted ctx (exec_fault env)); [done|].
    cbn [snd with_table roomserver_event_json].
    by apply insert_or_ignore_keeps.
  - destruct (bulkSelectEventJSON_after env ctx nids txn) as [-> | ->];
      [done|by rewrite CloseAndLogIfError_table].
Qed.

(** C6: a payload that is stored for an identifier is still stored for it,
    unchanged, after any sequence of inserts and bulk selects, with any
    arguments, whether the calls succeed, fail or are cancelled. *)
Theorem stored_payload_never_changes
    (cs : list call) (txn : DB) (eventNID : Z) (payload : bytes) :
  roomserver_event_json txn !! eventNID = Some payload →
  roomserver_event_json (after_calls txn cs) !! eventNID = Some payload.
Proof.
  unfold after_calls. revert txn.
  induction cs as [|c cs IH]; intros txn Hstored; cbn [foldl]; [done|].
  by apply IH, after_call_keeps.
Qed.

Lemma stored_payload_never_changes_run :
  roomserver_event_json
    (after_calls db_abc
       [CallInsert healthy Background 1%Z json_b;
        CallBulkSelect healthy (DoneBefore 1 ByCancel) [2; 1]%Z;
        CallInsert healthy (DoneBefore 0 ByDeadline) 4%Z json_c;
        CallInsert healthy Background 4%Z json_a]) !! 1%Z
  = Some json_a.
Proof. apply stored_payload_never_changes. reflexivity. Defined.

(** ** Failures *)

Lemma read_rows_scan_fails env ctx (pending : list row) results (i k : nat) (e : error) :
  i + length pending ≤ length results →
  k < length pending →
  (∀ j, j ≤ k → next_stopped env ctx (i + j) = None) →
  (∀ j, j < k → scan_failed env (i + j) = None) →
  scan_failed env (i + k) = Some e →
  read_rows env ctx pending results i = Return None (Some e).
Proof.
  revert results i k.
  induction pending as [|[nid json] pending IH];
    intros results i k Hlen Hk Hnext Hscan He; cbn [length] in *; [lia|].
  cbn [read_rows].
  pose proof (Hnext 0 ltac:(lia)) as Hnext0. rewrite Nat.add_0_r in Hnext0.
  rewrite Hnext0, decide_True by lia.
  destruct k as [|k].
  - rewrite Nat.add_0_r in He. by rewrite He.
  - pose proof (Hscan 0 ltac:(lia)) as Hscan0. rewrite Nat.add_0_r in Hscan0.
    rewrite Hscan0. apply (IH _ (S i) k).
    + rewrite length_insert. lia.
    + lia.
    + intros j Hj. replace (S i + j) with (i + S j) by lia. apply Hnext. lia.
    + intros j Hj. replace (S i + j) with (i + S j) by lia. apply Hscan. lia.
    + by replace (S i + k) with (i + S k) by lia.
Qed.

(** The loop never looks at how closing the rows will go. *)
Lemma read_rows_close_fault (c : option error) env ctx (pending : list row)
    results (i : nat) :
  read_rows (with_close_fault c env) ctx pending results i
  = read_rows env ctx pending results i.
Proof.
  revert results i.
  induction pending as [|[nid json] pending IH]; intros results i; [done|].
  cbn [read_rows].
  change (next_stopped (with_close_fault c env) ctx i) with (next_stopped env ctx i).
  change (scan_failed (with_close_fault c env) i) with (scan_failed env i).
  destruct (next_stopped env ctx i); [done|].
  destruct (decide (i < length results)); [|done].
  destruct (scan_failed env i); [done|]. apply IH.
Qed.

(** C7 does not hold for a bulk select whose rows stop coming because of an
    error of the driver: [rows.Next()] returns false, the loop ends, and the
    function returns the rows read so far with a nil error, without asking
    [rows.Err()].  Here the fetch of the second of three rows fails: the call
    returns the first row only, where an undisturbed call returns the three,
    and the error is not returned. *)
Theorem driver_error_between_rows_returns_truncated :
  next_stopped env_next_fails Background 1 = Some (ErrDriver "disk I/O error")
  ∧ bulkSelectEventJSON env_next_fails Background [1; 2; 3]%Z db_abc
    = (Return (Some [mkPair 1%Z json_a]) None, db_abc)
  ∧ (bulkSelectEventJSON healthy Background [1; 2; 3]%Z db_abc).1
    = Return (Some [mkPair 1%Z json_a; mkPair 2%Z json_b; mkPair 3%Z json_c]) None.
Proof. repeat split; vm_compute; reflexivity. Qed.

(** X13: when the query fails, or the [Scan] of a row that the loop gets to
    fails, the call returns that very error and no result sequence; a call
    never returns a result sequence together with an error; and how closing
    the rows goes changes nothing in what the call returns. *)
Theorem bulkSelectEventJSON_query_or_scan_error
    env ctx (eventNIDs : list EventNID) (txn : DB) :
  (∀ e,
     query_or_scan_fails env ctx
       (select_in (roomserver_event_json txn) (int64_of_EventNID <$> eventNIDs)) e →
     (bulkSelectEventJSON env ctx eventNIDs txn).1 = Return None (Some e))
  ∧ (∀ results err,
       (bulkSelectEventJSON env ctx eventNIDs txn).1 = Return results err →
       (results = None ∧ is_Some err) ∨ (is_Some results ∧ err = None))
  ∧ (∀ c,
       (bulkSelectEventJSON (with_close_fault c env) ctx eventNIDs txn).1
       = (bulkSelectEventJSON env ctx eventNIDs txn).1).
Proof.
  rewrite !bulkSelectEventJSON_unfold.
  pose proof (select_in_fits (roomserver_event_json txn) eventNIDs) as Hfits.
  split; [|split].
  - intros e [e' Hq|i e' Hq Hi Hnext Hscan He].
    + by rewrite Hq.
    + rewrite Hq. cbn [fst].
      apply read_rows_scan_fails with i; try done.
      all: intros j Hj; cbn [Nat.add]; auto.
  - intros results err.
    destruct (interrupted ctx (query_fault env)) as [e|]; cbn [fst].
    + intros [= <- <-]. left. split; [done|by eexists].
    + destruct (read_rows_cases env ctx _ _ _ Hfits)
        as [(n & _ & _ & ->)|(k & e & _ & _ & ->)]; intros [= <- <-].
      * right. split; [by eexists|done].
      * left. split; [done|by eexists].
  - intros c. rewrite bulkSelectEventJSON_unfold.
    cbn [with_close_fault query_fault].
    destruct (interrupted ctx (query_fault env)); [done|]. cbn [fst].
    apply read_rows_close_fault.
Qed.

Lemma bulkSelectEventJSON_query_or_scan_error_run :
  (bulkSelectEventJSON env_scan_fails Background [3; 1; 2]%Z db_abc).1
  = Return None (Some (ErrDriver "sql: Scan error")).
Proof.
  apply (proj1 (bulkSelectEventJSON_query_or_scan_error env_scan_fails Background
                  [3; 1; 2]%Z db_abc)).
  apply ScanFails with 1.
  - reflexivity.
  - vm_compute. lia.
  - intros j _. reflexivity.
  - intros j Hj. assert (j = 0) as -> by lia. reflexivity.
  - reflexivity.
Defined.

(** ** Cancellation *)

(** A context that is done before the statement runs stops both functions
    with the context's own error, and nothing is written or read. *)
Lemma done_context_stops_the_statement (c : cause) (fault : option error) :
  interrupted (DoneBefore 0 c) fault = Some (cause_error c).
Proof. reflexivity. Qed.

Lemma bulkSelectEventJSON_stopped env ctx (eventNIDs : list EventNID) (txn : DB)
    (e : error) :
  interrupted ctx (query_fault env) = Some e →
  bulkSelectEventJSON env ctx eventNIDs txn = (Return None (Some e), txn).
Proof. intros Hstop. by rewrite bulkSelectEventJSON_unfold, Hstop. Qed.

(** When a fetch is stopped, by the context or by a fault, the loop ends as
    if the rows were exhausted. *)
Lemma read_rows_stops_at env ctx (pending : list row) results (i n : nat) (e : error) :
  i + length pending ≤ length results →
  n ≤ length pending →
  (∀ j, j < n → next_stopped env ctx (i + j) = None) →
  (∀ j, j < n → scan_failed env (i + j) = None) →
  next_stopped env ctx (i + n) = Some e →
  read_rows env ctx pending results i
  = Return (Some (take i results ++ (to_pair <$> take n pending))) None.
Proof.
  revert results i n.
  induction pending as [|[nid json] pending IH];
    intros results i n Hlen Hn Hnext Hscan He; cbn [length] in *.
  - assert (n = 0) as -> by lia. rewrite Nat.add_0_r in He.
    cbn [read_rows]. rewrite He. cbn. by rewrite app_nil_r.
  - cbn [read_rows]. destruct n as [|n].
    + rewrite Nat.add_0_r in He. rewrite He. cbn. by rewrite app_nil_r.
    + pose proof (Hnext 0 ltac:(lia)) as Hnext0.
      pose proof (Hscan 0 ltac:(lia)) as Hscan0.
      rewrite Nat.add_0_r in Hnext0, Hscan0.
      rewrite Hnext0, decide_True, Hscan0 by lia.
      rewrite (IH _ (S i) n).
      * rewrite take_S_insert by lia. cbn [take fmap list_fmap].
        by rewrite <-app_assoc.
      * rewrite length_insert. lia.
      * lia.
      * intros j Hj. replace (S i + j) with (i + S j) by lia. apply Hnext. lia.
      * intros j Hj. replace (S i + j) with (i + S j) by lia. apply Hscan. lia.
      * by replace (S i + n) with (i + S n) by lia.
Qed.

(** X8: when the fetch of row [n] is stopped with an error [e], by the
    context or by the driver, after [n] rows were read without a failure,
    the call returns those first [n] rows and a nil error.  The error [e],
    which [rows.Err()] holds, is not in what the call returns. *)
Lemma bulkSelectEventJSON_cut_short
    env ctx (eventNIDs : list EventNID) (txn : DB) (n : nat) (e : error) :
  interrupted ctx (query_fault env) = None →
  n ≤ length (select_in (roomserver_event_json txn) (wrap64 <$> eventNIDs)) →
  (∀ j, j < n → next_stopped env ctx j = None) →
  (∀ j, j < n → scan_failed env j = None) →
  next_stopped env ctx n = Some e →
  (bulkSelectEventJSON env ctx eventNIDs txn).1
  = Return (Some (to_pair <$>
       take n (select_in (roomserver_event_json txn) (wrap64 <$> eventNIDs)))) None.
Proof.
  intros Hquery Hn Hnext Hscan He.
  rewrite bulkSelectEventJSON_unfold, Hquery. cbn [fst].
  by rewrite (read_rows_stops_at _ _ _ _ 0 n e) by (done || apply select_in_fits).
Qed.

(** C8 does not hold for a bulk select that is cancelled between two rows:
    [rows.Next()] returns false, the loop ends, and the function returns the
    rows read so far with a nil error, without asking [rows.Err()].  Here the
    context is cancelled after the first of three rows. *)
Theorem cancelled_between_rows_returns_partial :
  next_stopped healthy (DoneBefore 2 ByCancel) 1 = Some Canceled
  ∧ is_cancellation Canceled = true
  ∧ bulkSelectEventJSON healthy (DoneBefore 2 ByCancel) [1; 2; 3]%Z db_abc
    = (Return (Some [mkPair 1%Z json_a]) None, db_abc).
Proof. repeat split; vm_compute; reflexivity. Qed.

(** * Further properties of the two functions *)

(** ** The insert, one call *)

Lemma lookup_insert_or_ignore (nid k : Z) (json : bytes) (t : table) :
  insert_or_ignore nid json t !! k
  = match t !! k with
    | Some old => Some old
    | None => if decide (nid = k) then Some json else None
    end.
Proof.
  unfold insert_or_ignore. destruct (t !! nid) as [old|] eqn:Hnid.
  - destruct (t !! k) eqn:Hk; [done|].
    destruct (decide (nid = k)) as [->|]; [congruence|done].
  - rewrite lookup_insert.
    destruct (decide (nid = k)) as [->|].
    + by rewrite Hnid.
    + by destruct (t !! k).
Qed.

(** X1: an insert that returns an error returns the error that stopped the
    statement (the context's, or the driver's) and has written nothing: the
    database is the one it was called on. *)
Theorem insertEventJSON_error_writes_nothing
    env ctx (eventNID : EventNID) (eventJSON : bytes) (txn : DB) (e : error) :
  (insertEventJSON env ctx eventNID eventJSON txn).1 = Some e →
  interrupted ctx (exec_fault env) = Some e
  ∧ (insertEventJSON env ctx eventNID eventJSON txn).2 = txn.
Proof.
  rewrite insertEventJSON_unfold.
  destruct (interrupted ctx (exec_fault env)) as [e'|]; cbn [fst snd].
  - by intros [= ->].
  - discriminate.
Qed.

Lemma insertEventJSON_error_writes_nothing_run :
  interrupted (DoneBefore 0 ByDeadline) (exec_fault healthy) = Some DeadlineExceeded
  ∧ (insertEventJSON healthy (DoneBefore 0 ByDeadline) 4%Z json_a db_abc).2 = db_abc.
Proof. apply insertEventJSON_error_writes_nothing. reflexivity. Defined.

(** X2: an insert, whether it succeeds or fails, leaves the row of every
    other identifier as it was, and writes nothing to the log. *)
Theorem insertEventJSON_frame
    env ctx (eventNID : EventNID) (eventJSON : bytes) (txn : DB) (other : Z) :
  other ≠ int64_of_EventNID eventNID →
  db_of (insertEventJSON env ctx eventNID eventJSON txn).2 !! other
  = db_of txn !! other
  ∧ logged (insertEventJSON env ctx eventNID eventJSON txn).2 = logged txn.
Proof.
  intros Hother. rewrite insertEventJSON_unfold. unfold db_of.
  destruct (interrupted ctx (exec_fault env)); [done|].
  cbn [snd with_table roomserver_event_json logged]. split; [|done].
  rewrite lookup_insert_or_ignore.
  destruct (roomserver_event_json txn !! other); [done|].
  unfold int64_of_EventNID in Hother. by rewrite decide_False.
Qed.

Lemma insertEventJSON_frame_run :
  db_of (insertEventJSON healthy Background 4%Z json_a db_abc).2 !! 2%Z
  = db_of db_abc !! 2%Z
  ∧ logged (insertEventJSON healthy Background 4%Z json_a db_abc).2 = logged db_abc.
Proof. apply insertEventJSON_frame. vm_compute. discriminate. Defined.

(** X3: after an insert that was carried out, a bulk select of that one
    identifier returns exactly one pair for it, whatever the table held
    before: with the payload that was already stored if there was one, and
    with the inserted payload otherwise. *)
Theorem insert_then_bulk_select_any
    env1 ctx1 env2 ctx2 (eventNID : EventNID) (payload : bytes) (txn : DB) :
  in_int64 eventNID →
  interrupted ctx1 (exec_fault env1) = None →
  undisturbed env2 ctx2 1 →
  (bulkSelectEventJSON env2 ctx2 [eventNID]
     (insertEventJSON env1 ctx1 eventNID payload txn).2).1
  = Return (Some [mkPair eventNID (default payload (db_of txn !! eventNID))]) None.
Proof.
  intros Hid Hexec Henv.
  rewrite insertEventJSON_done by done. cbn [snd].
  rewrite bulkSelectEventJSON_delivered by done.
  cbn [with_table roomserver_event_json fmap list_fmap].
  rewrite wrap64_id by done. unfold db_of.
  rewrite (select_in_singleton _ eventNID
             (default payload (roomserver_event_json txn !! eventNID))).
  - cbn [fmap list_fmap]. unfold to_pair, EventNID_of_int64. cbn [fst snd].
    by rewrite wrap64_id.
  - rewrite lookup_insert_or_ignore. unfold EventNID in *.
    destruct (roomserver_event_json txn !! eventNID); [done|].
    by rewrite decide_True.
Qed.

Lemma insert_then_bulk_select_any_run :
  (bulkSelectEventJSON healthy Background [7%Z]
     (insertEventJSON healthy Background 7%Z json_a db_7c).2).1
  = Return (Some [mkPair 7%Z (default json_a (db_of db_7c !! 7%Z))]) None.
Proof.
  apply insert_then_bulk_select_any.
  - unfold in_int64. lia.
  - reflexivity.
  - split; [reflexivity|]. split; intros j _; reflexivity.
Defined.

Lemma insert_or_ignore_comm (a b : Z) (ja jb : bytes) (t : table) :
  a ≠ b →
  insert_or_ignore b jb (insert_or_ignore a ja t)
  = insert_or_ignore a ja (insert_or_ignore b jb t).
Proof.
  intros Hab. apply map_eq. intros k. rewrite !lookup_insert_or_ignore.
  destruct (t !! k); [done|].
  destruct (decide (a = k)), (decide (b = k)); congruence.
Qed.

(** X4: two inserts for different identifiers that are both carried out
    leave the same database in either order. *)
Theorem insertEventJSON_commute
    envA ctxA envB ctxB (nidA nidB : EventNID) (jsonA jsonB : bytes) (txn : DB) :
  int64_of_EventNID nidA ≠ int64_of_EventNID nidB →
  interrupted ctxA (exec_fault envA) = None →
  interrupted ctxB (exec_fault envB) = None →
  (insertEventJSON envB ctxB nidB jsonB
     (insertEventJSON envA ctxA nidA jsonA txn).2).2
  = (insertEventJSON envA ctxA nidA jsonA
       (insertEventJSON envB ctxB nidB jsonB txn).2).2.
Proof.
  intros Hne HA HB. unfold int64_of_EventNID in Hne.
  rewrite !insertEventJSON_done by done. cbn [snd].
  unfold with_table. cbn [roomserver_event_json logged].
  by rewrite insert_or_ignore_comm.
Qed.

Lemma insertEventJSON_commute_run :
  (insertEventJSON healthy Background 5%Z json_b
     (insertEventJSON healthy Background 4%Z json_a db_abc).2).2
  = (insertEventJSON healthy Background 4%Z json_a
       (insertEventJSON healthy Background 5%Z json_b db_abc).2).2.
Proof.
  apply insertEventJSON_commute.
  - vm_compute. discriminate.
  - reflexivity.
  - reflexivity.
Defined.

(** ** The bulk select, one call *)

Lemma bulkSelectEventJSON_cut_short_run :
  (bulkSelectEventJSON healthy (DoneBefore 2 ByCancel) [1; 2; 3]%Z db_abc).1
  = Return (Some (to_pair <$>
       take 1 (select_in (roomserver_event_json db_abc) (wrap64 <$> [1; 2; 3]%Z)))) None.
Proof.
  apply bulkSelectEventJSON_cut_short with Canceled.
  - reflexivity.
  - vm_compute. lia.
  - intros j Hj. assert (j = 0) as -> by lia. reflexivity.
  - intros j _. reflexivity.
  - reflexivity.
Defined.

Lemma select_in_same_set (t : table) (zs1 zs2 : list Z) :
  (∀ k, k ∈ zs1 ↔ k ∈ zs2) → select_in t zs1 = select_in t zs2.
Proof.
  intros Hsame. unfold select_in. f_equal.
  apply list_filter_iff. intros [k v]. apply Hsame.
Qed.

(** What the loop returns does not depend on the slots beyond the rows: any
    slice with room for the rows will do. *)
Lemma read_rows_any_slice env ctx (pending : list row) results1 results2 (i : nat) :
  i + length pending ≤ length results1 →
  i + length pending ≤ length results2 →
  take i results1 = take i results2 →
  read_rows env ctx pending results1 i = read_rows env ctx pending results2 i.
Proof.
  revert results1 results2 i.
  induction pending as [|[nid json] pending IH];
    intros results1 results2 i Hlen1 Hlen2 Htake; cbn [read_rows length] in *.
  - by rewrite Htake.
  - rewrite Htake. destruct (next_stopped env ctx i); [done|].
    rewrite !decide_True by lia.
    destruct (scan_failed env i); [done|].
    apply IH.
    + rewrite length_insert. lia.
    + rewrite length_insert. lia.
    + rewrite !take_S_insert by lia. by rewrite Htake.
Qed.

(** X5: two bulk selects that are both carried out, for slices with the
    same elements in any order and with any repetitions, return the same
    results. *)
Theorem bulkSelectEventJSON_same_set
    env1 ctx1 env2 ctx2 (eventNIDs1 eventNIDs2 : list EventNID) (txn : DB) :
  undisturbed env1 ctx1 (length eventNIDs1) →
  undisturbed env2 ctx2 (length eventNIDs2) →
  (∀ nid, nid ∈ eventNIDs1 ↔ nid ∈ eventNIDs2) →
  (bulkSelectEventJSON env1 ctx1 eventNIDs1 txn).1
  = (bulkSelectEventJSON env2 ctx2 eventNIDs2 txn).1.
Proof.
  intros Henv1 Henv2 Hsame. rewrite !bulkSelectEventJSON_delivered by done.
  do 3 f_equal. apply select_in_same_set. intros k. rewrite !list_elem_of_fmap.
  split; intros (nid & -> & Hin); exists nid; (split; [done|]); by apply Hsame.
Qed.

Lemma bulkSelectEventJSON_same_set_run :
  (bulkSelectEventJSON healthy Background [3; 1; 1; 2]%Z db_abc).1
  = (bulkSelectEventJSON env_close_fails (DoneBefore 9 ByCancel) [2; 3; 1]%Z db_abc).1.
Proof.
  apply bulkSelectEventJSON_same_set.
  - split; [reflexivity|]. split; intros j _; reflexivity.
  - split; [reflexivity|]. split; intros j Hj; [|reflexivity].
    cbn [length] in Hj. unfold next_stopped, ctx_Err.
    rewrite decide_False by lia. reflexivity.
  - intros nid. rewrite !elem_of_cons, !elem_of_nil. tauto.
Defined.

(** The call when nothing is in its way, for identifiers that are 64-bit
    values: the rows of the select, as they are stored. *)
Lemma bulkSelectEventJSON_plain env ctx (eventNIDs : list EventNID) (txn : DB) :
  undisturbed env ctx (length eventNIDs) →
  Forall in_int64 eventNIDs →
  (bulkSelectEventJSON env ctx eventNIDs txn).1
  = Return (Some (plain_pair <$> select_in (roomserver_event_json txn) eventNIDs)) None.
Proof.
  intros Henv Hids. rewrite bulkSelectEventJSON_delivered by done.
  by rewrite wrap64_fmap_id, to_pair_select_in.
Qed.

Lemma elem_of_select_in_keys (t : table) (zs : list Z) (k : Z) :
  k ∈ (select_in t zs).*1 ↔ k ∈ zs ∧ is_Some (t !! k).
Proof.
  rewrite list_elem_of_fmap. split.
  - intros ([k' v] & -> & [Hv Hk]%elem_of_select_in). split; [done|by exists v].
  - intros [Hk [v Hv]]. exists (k, v). split; [done|].
    by apply elem_of_select_in.
Qed.

(** X6: a bulk select that is carried out returns as many pairs as there
    are distinct identifiers in the slice exactly when every identifier in
    the slice is stored: comparing the two lengths tells whether an event is
    missing. *)
Theorem bulkSelectEventJSON_complete_iff
    env ctx (eventNIDs : list EventNID) (txn : DB) :
  undisturbed env ctx (length eventNIDs) →
  Forall in_int64 eventNIDs →
  ∃ results,
    (bulkSelectEventJSON env ctx eventNIDs txn).1 = Return (Some results) None
    ∧ (length results = length (remove_dups eventNIDs)
       ↔ ∀ nid, nid ∈ eventNIDs → is_Some (db_of txn !! nid)).
Proof.
  intros Henv Hids. eexists. split; [by apply bulkSelectEventJSON_plain|].
  unfold db_of, EventNID in *. set (t := roomserver_event_json txn).
  rewrite length_fmap, <-(length_fmap fst).
  assert ((select_in t eventNIDs).*1 ⊆+ remove_dups eventNIDs) as Hsub.
  { apply NoDup_submseteq; [apply NoDup_select_in_keys|].
    intros k Hk. apply elem_of_remove_dups. by eapply select_in_keys_wanted. }
  split.
  - intros Hlen nid Hnid.
    assert (nid ∈ (select_in t eventNIDs).*1) as Hin.
    { rewrite (submseteq_length_Permutation _ _ Hsub) by lia.
      by apply elem_of_remove_dups. }
    by apply elem_of_select_in_keys in Hin as [_ ?].
  - intros Hall. apply Permutation_length, NoDup_Permutation.
    + apply NoDup_select_in_keys.
    + apply NoDup_remove_dups.
    + intros k. rewrite elem_of_remove_dups, elem_of_select_in_keys.
      split; [tauto|]. intros Hk. split; [done|by apply Hall].
Qed.

Lemma bulkSelectEventJSON_complete_iff_run :
  ∃ results,
    (bulkSelectEventJSON healthy Background [3; 1; 99; 3]%Z db_abc).1
    = Return (Some results) None
    ∧ (length results = length (remove_dups [3; 1; 99; 3]%Z)
       ↔ ∀ nid, nid ∈ [3; 1; 99; 3]%Z → is_Some (db_of db_abc !! nid)).
Proof.
  apply bulkSelectEventJSON_complete_iff.
  - split; [reflexivity|]. split; intros j _; reflexivity.
  - repeat constructor; unfold in_int64; lia.
Defined.

Lemma StronglySorted_take {A} (R : relation A) (l : list A) (n : nat) :
  StronglySorted R l → StronglySorted R (take n l).
Proof.
  intros Hl. rewrite <-(take_drop n l) in Hl.
  by apply StronglySorted_app_1_l in Hl.
Qed.

(** X7: whatever the driver and the context do, a result sequence that a
    bulk select returns comes with a nil error and is an initial part of the
    full answer: it is strictly ascending by identifier, and each of its
    pairs is a stored row whose identifier was asked for. *)
Theorem bulkSelectEventJSON_results_sound
    env ctx (eventNIDs : list EventNID) (txn : DB)
    (results : list eventJSONPair) (err : option error) :
  Forall in_int64 eventNIDs →
  (bulkSelectEventJSON env ctx eventNIDs txn).1 = Return (Some results) err →
  err = None
  ∧ results `prefix_of` (plain_pair <$> select_in (db_of txn) eventNIDs)
  ∧ StronglySorted Z.lt (pair_EventNID <$> results)
  ∧ ∀ nid json,
      mkPair nid json ∈ results → nid ∈ eventNIDs ∧ db_of txn !! nid = Some json.
Proof.
  intros Hids. rewrite bulkSelectEventJSON_unfold. unfold db_of.
  destruct (interrupted ctx (query_fault env)); [discriminate|]. cbn [fst].
  pose proof (select_in_fits (roomserver_event_json txn) eventNIDs) as Hfits.
  destruct (read_rows_cases env ctx _ _ _ Hfits)
    as [(n & _ & _ & ->)|(k & e & _ & _ & ->)]; [|discriminate].
  cbn [take app]. intros [= <- <-]. split; [done|].
  rewrite wrap64_fmap_id by done.
  set (rows := select_in (roomserver_event_json txn) eventNIDs).
  assert (to_pair <$> take n rows = take n (plain_pair <$> rows)) as ->.
  { rewrite <-fmap_take. apply Forall_fmap_ext, Forall_forall. intros [k v] Hin.
    apply (elem_of_sublist _ rows) in Hin; [|apply sublist_take].
    apply elem_of_select_in in Hin as [_ Hk]. rewrite Forall_forall in Hids.
    unfold to_pair, plain_pair, EventNID_of_int64. cbn [fst snd].
    by rewrite wrap64_id by by apply Hids. }
  split; [apply prefix_take|]. split.
  - rewrite <-fmap_take, plain_pair_keys, fmap_take.
    apply StronglySorted_take, select_in_ascending.
  - intros nid json Hin.
    apply (elem_of_sublist _ (plain_pair <$> rows)) in Hin; [|apply sublist_take].
    apply elem_of_plain_pair, elem_of_select_in in Hin. tauto.
Qed.

Lemma bulkSelectEventJSON_results_sound_run :
  @None error = None
  ∧ [mkPair 1%Z json_a] `prefix_of` (plain_pair <$> select_in (db_of db_abc) [3; 2; 1]%Z)
  ∧ StronglySorted Z.lt (pair_EventNID <$> [mkPair 1%Z json_a])
  ∧ ∀ nid json,
      mkPair nid json ∈ [mkPair 1%Z json_a] →
      nid ∈ [3; 2; 1]%Z ∧ db_of db_abc !! nid = Some json.
Proof.
  apply (bulkSelectEventJSON_results_sound
           env_close_fails (DoneBefore 2 ByDeadline) [3; 2; 1]%Z db_abc).
  - repeat constructor; unfold in_int64; lia.
  - vm_compute. reflexivity.
Defined.

(** What [QueryContext] returns for the statement the function builds. *)
Lemma QueryContext_bulk_select env ctx (eventNIDs : list EventNID) (txn : DB) :
  QueryContext env ctx
    (replace_dollar1 bulkSelectEventJSONSQL (QueryVariadic (length eventNIDs)))
    ((λ v, VInteger (int64_of_EventNID v)) <$> eventNIDs) txn
  = match interrupted ctx (query_fault env) with
    | Some e => (inl e, txn)
    | None =>
        (inr (select_in (roomserver_event_json txn) (wrap64 <$> eventNIDs)), txn)
    end.
Proof.
  unfold QueryContext.
  destruct (interrupted ctx (query_fault env)) as [e|]; [done|].
  replace ((λ v, VInteger (int64_of_EventNID v)) <$> eventNIDs)
    with (VInteger <$> (wrap64 <$> eventNIDs))
    by (by rewrite <-list_fmap_compose).
  replace (length eventNIDs) with (length (VInteger <$> (wrap64 <$> eventNIDs)))
    by (by rewrite !length_fmap).
  rewrite engine_bulk_select, with_table_same. done.
Qed.

(** X11: an error that a bulk select returns comes without a result
    sequence, and it is the error that [QueryContext] returned for the
    statement the function built, or the error of a failed [Scan] of one of
    the rows: the function returns no error of its own, and none from
    [rows.Err()] or from closing the rows. *)
Theorem bulkSelectEventJSON_error_origin
    env ctx (eventNIDs : list EventNID) (txn : DB)
    (results : option (list eventJSONPair)) (e : error) :
  (bulkSelectEventJSON env ctx eventNIDs txn).1 = Return results (Some e) →
  results = None
  ∧ ((QueryContext env ctx
        (replace_dollar1 bulkSelectEventJSONSQL (QueryVariadic (length eventNIDs)))
        ((λ v, VInteger (int64_of_EventNID v)) <$> eventNIDs) txn).1 = inl e
     ∨ ∃ i, i < length eventNIDs ∧ scan_failed env i = Some e).
Proof.
  rewrite bulkSelectEventJSON_unfold, QueryContext_bulk_select.
  destruct (interrupted ctx (query_fault env)) as [e'|]; cbn [fst].
  { intros [= <- <-]. split; [done|by left]. }
  pose proof (select_in_fits (roomserver_event_json txn) eventNIDs) as Hfits.
  destruct (read_rows_cases env ctx _ _ _ Hfits)
    as [(n & _ & _ & ->)|(k & e' & Hk & He & ->)]; [discriminate|].
  intros [= <- <-]. split; [done|]. right. exists k. split; [|done].
  rewrite length_replicate in Hfits. lia.
Qed.

Lemma bulkSelectEventJSON_error_origin_run :
  @None (list eventJSONPair) = None
  ∧ ((QueryContext env_scan_fails Background
        (replace_dollar1 bulkSelectEventJSONSQL (QueryVariadic (length [3; 1; 2]%Z)))
        ((λ v, VInteger (int64_of_EventNID v)) <$> [3; 1; 2]%Z) db_abc).1
     = inl (ErrDriver "sql: Scan error")
     ∨ ∃ i, i < length [3; 1; 2]%Z
            ∧ scan_failed env_scan_fails i = Some (ErrDriver "sql: Scan error")).
Proof.
  apply (bulkSelectEventJSON_error_origin
           env_scan_fails Background [3; 1; 2]%Z db_abc).
  vm_compute. reflexivity.
Defined.

Lemma StronglySorted_filter {A} (R : relation A) (P : A → Prop)
    `{!∀ x, Decision (P x)} (l : list A) :
  StronglySorted R l → StronglySorted R (filter P l).
Proof.
  induction 1 as [|x l Hl IH Hall]; [constructor|].
  rewrite filter_cons. case_decide; [|done].
  constructor; [done|].
  rewrite Forall_forall in Hall. apply Forall_forall.
  intros y [_ Hy]%list_elem_of_filter. by apply Hall.
Qed.

(** Asking for fewer identifiers selects the rows of the larger answer that
    have one of them. *)
Lemma select_in_fewer (t : table) (zs1 zs2 : list Z) :
  (∀ k, k ∈ zs1 → k ∈ zs2) →
  select_in t zs1 = filter (λ r : row, r.1 ∈ zs1) (select_in t zs2).
Proof.
  intros Hsub. apply (StronglySorted_unique_strong nid_le).
  - intros [k1 v1] [k2 v2] [Hv1 _]%elem_of_select_in
      [_ [Hv2 _]%elem_of_select_in]%list_elem_of_filter.
    unfold nid_le. cbn [fst]. intros Hle1 Hle2.
    assert (k1 = k2) as -> by lia. congruence.
  - apply Sorted_StronglySorted; [apply _|].
    unfold select_in. apply Sorted_merge_sort. apply _.
  - apply StronglySorted_filter, Sorted_StronglySorted; [apply _|].
    unfold select_in. apply Sorted_merge_sort. apply _.
  - apply NoDup_Permutation.
    + eapply NoDup_fmap_1, NoDup_select_in_keys.
    + eapply NoDup_filter, NoDup_fmap_1, NoDup_select_in_keys.
    + intros [k v]. rewrite list_elem_of_filter, !elem_of_select_in. cbn [fst].
      split; [|tauto]. intros [Hv Hk]. auto.
Qed.

Lemma plain_pair_filter (zs : list Z) (rows : list row) :
  plain_pair <$> filter (λ r : row, r.1 ∈ zs) rows
  = filter (λ p, pair_EventNID p ∈ zs) (plain_pair <$> rows).
Proof.
  induction rows as [|[k v] rows IH]; [done|].
  rewrite fmap_cons, !filter_cons. cbn [plain_pair pair_EventNID fst snd].
  repeat case_decide; rewrite ?fmap_cons, ?IH; done.
Qed.

(** X12: when both calls are carried out, a bulk select for a part of the
    identifiers returns the pairs of the bulk select for all of them that
    carry one of the identifiers of that part, in the same order. *)
Theorem bulkSelectEventJSON_fewer_ids
    env ctx (part whole : list EventNID) (txn : DB) :
  undisturbed env ctx (length part) →
  undisturbed env ctx (length whole) →
  Forall in_int64 part →
  Forall in_int64 whole →
  (∀ nid, nid ∈ part → nid ∈ whole) →
  ∃ results_part results_whole,
    (bulkSelectEventJSON env ctx part txn).1 = Return (Some results_part) None
    ∧ (bulkSelectEventJSON env ctx whole txn).1 = Return (Some results_whole) None
    ∧ results_part = filter (λ p, pair_EventNID p ∈ part) results_whole
    ∧ results_part `sublist_of` results_whole.
Proof.
  intros Hpart Hwhole Hids1 Hids2 Hsub. eexists _, _.
  split; [by apply bulkSelectEventJSON_plain|].
  split; [by apply bulkSelectEventJSON_plain|].
  assert (plain_pair <$> select_in (roomserver_event_json txn) part
          = filter (λ p, pair_EventNID p ∈ part)
              (plain_pair <$> select_in (roomserver_event_json txn) whole)) as Heq.
  { rewrite <-plain_pair_filter. f_equal. by apply select_in_fewer. }
  split; [done|]. rewrite Heq. apply sublist_filter.
Qed.

Lemma bulkSelectEventJSON_fewer_ids_run :
  ∃ results_part results_whole,
    (bulkSelectEventJSON healthy Background [3; 1]%Z db_abc).1
    = Return (Some results_part) None
    ∧ (bulkSelectEventJSON healthy Background [1; 2; 3; 99]%Z db_abc).1
      = Return (Some results_whole) None
    ∧ results_part = filter (λ p, pair_EventNID p ∈ [3; 1]%Z) results_whole
    ∧ results_part `sublist_of` results_whole.
Proof.
  apply bulkSelectEventJSON_fewer_ids.
  - split; [reflexivity|]. split; intros j _; reflexivity.
  - split; [reflexivity|]. split; intros j _; reflexivity.
  - repeat constructor; unfold in_int64; lia.
  - repeat constructor; unfold in_int64; lia.
  - intros nid. rewrite !elem_of_cons, !elem_of_nil. tauto.
Defined.

(** ** Several calls *)

Lemma after_calls_cons (txn : DB) (c : call) (cs : list call) :
  after_calls txn (c :: cs) = after_calls (after_call txn c) cs.
Proof. reflexivity. Qed.

(** The table after a batch of inserts for fresh, pairwise different
    identifiers: the rows it had and the events of the batch. *)
Lemma table_after_insert_calls env ctx (events : list (EventNID * bytes)) (txn : DB) :
  interrupted ctx (exec_fault env) = None →
  NoDup events.*1 →
  Forall in_int64 events.*1 →
  (∀ nid, nid ∈ events.*1 → roomserver_event_json txn !! nid = None) →
  ∀ k v,
    roomserver_event_json (after_calls txn (insert_calls env ctx events)) !! k = Some v
    ↔ roomserver_event_json txn !! k = Some v ∨ (k, v) ∈ events.
Proof.
  intros Hexec. revert txn.
  induction events as [|[k0 v0] events IH]; intros txn Hnd Hids Hfresh k v.
  - cbn. rewrite elem_of_nil. tauto.
  - rewrite fmap_cons in Hnd, Hids, Hfresh. cbn [fst] in Hnd, Hids, Hfresh.
    apply NoDup_cons in Hnd as [Hk0 Hnd].
    apply Forall_cons in Hids as [Hin0 Hids].
    unfold insert_calls. rewrite fmap_cons, after_calls_cons.
    cbn [after_call fst snd]. fold (insert_calls env ctx events).
    rewrite insertEventJSON_done by done. cbn [snd].
    rewrite wrap64_id by done.
    rewrite insert_or_ignore_free by (apply Hfresh; left).
    rewrite IH; [|done|done|].
    + cbn [with_table roomserver_event_json].
      rewrite lookup_insert_Some, elem_of_cons.
      assert (roomserver_event_json txn !! k0 = None) by (apply Hfresh; left).
      split.
      * intros [[[-> ->]|[_ Hold]]|Hev]; auto.
      * intros [Hold|[[= -> ->]|Hev]]; auto.
        left. right. split; [|done]. intros ->. unfold EventNID in *. congruence.
    + intros nid Hnid. cbn [with_table roomserver_event_json].
      rewrite lookup_insert_ne; [apply Hfresh; by right|].
      intros ->. done.
Qed.

(** X9: after a batch of inserts, all carried out, for pairwise different
    identifiers that the table did not hold, a bulk select of the identifiers
    of the batch returns exactly the events of the batch, in strictly
    ascending order of identifier, whatever the order of the batch was. *)
Theorem insert_calls_then_bulk_select
    env1 ctx1 env2 ctx2 (events : list (EventNID * bytes)) (txn : DB) :
  interrupted ctx1 (exec_fault env1) = None →
  undisturbed env2 ctx2 (length events) →
  NoDup events.*1 →
  Forall in_int64 events.*1 →
  (∀ nid, nid ∈ events.*1 → db_of txn !! nid = None) →
  ∃ results,
    (bulkSelectEventJSON env2 ctx2 events.*1
       (after_calls txn (insert_calls env1 ctx1 events))).1
    = Return (Some results) None
    ∧ StronglySorted Z.lt (pair_EventNID <$> results)
    ∧ ∀ nid json, mkPair nid json ∈ results ↔ (nid, json) ∈ events.
Proof.
  intros Hexec Henv Hnd Hids Hfresh. unfold db_of in Hfresh. eexists. split.
  { apply bulkSelectEventJSON_plain; [|done]. by rewrite length_fmap. }
  split.
  - rewrite plain_pair_keys. apply select_in_ascending.
  - intros nid json.
    rewrite elem_of_plain_pair, elem_of_select_in.
    rewrite (table_after_insert_calls env1 ctx1 events txn) by done.
    split.
    + intros [[Hold|Hev] Hin]; [|done].
      rewrite Hfresh in Hold by done. done.
    + intros Hev. split; [by right|].
      apply list_elem_of_fmap. by exists (nid, json).
Qed.

Lemma insert_calls_then_bulk_select_run :
  ∃ results,
    (bulkSelectEventJSON healthy Background [(9, json_c); (4, json_a); (6, json_b)]%Z.*1
       (after_calls db_abc
          (insert_calls healthy Background [(9, json_c); (4, json_a); (6, json_b)]%Z))).1
    = Return (Some results) None
    ∧ StronglySorted Z.lt (pair_EventNID <$> results)
    ∧ ∀ nid json,
        mkPair nid json ∈ results
        ↔ (nid, json) ∈ [(9, json_c); (4, json_a); (6, json_b)]%Z.
Proof.
  apply insert_calls_then_bulk_select.
  - reflexivity.
  - split; [reflexivity|]. split; intros j _; reflexivity.
  - cbn. repeat (apply NoDup_cons; split);
      [rewrite ?elem_of_cons, elem_of_nil; intros H; repeat destruct H as [H|H];
       try discriminate; done..|apply NoDup_nil_2].
  - cbn. repeat constructor; unfold in_int64; lia.
  - cbn. intros nid. rewrite !elem_of_cons, elem_of_nil.
    intros [->|[->|[->|[]]]]; reflexivity.
Defined.

(** X10: no row appears from nowhere: a row that the table holds after any
    sequence of inserts and bulk selects was there before the sequence, or is
    the identifier and the payload of one of its inserts. *)
Theorem stored_row_origin
    (cs : list call) (txn : DB) (k : Z) (v : bytes) :
  db_of (after_calls txn cs) !! k = Some v →
  db_of txn !! k = Some v
  ∨ ∃ env ctx eventNID,
      CallInsert env ctx eventNID v ∈ cs ∧ int64_of_EventNID eventNID = k.
Proof.
  unfold db_of. revert txn.
  induction cs as [|c cs IH]; intros txn Hkv; [by left|].
  rewrite after_calls_cons in Hkv.
  destruct (IH _ Hkv) as [Hstep|(env & ctx & nid & Hin & Hnid)].
  - destruct c as [env ctx nid json|env ctx nids]; cbn [after_call] in Hstep.
    + rewrite insertEventJSON_unfold in Hstep.
      destruct (interrupted ctx (exec_fault env)); [by left|].
      cbn [snd with_table roomserver_event_json] in Hstep.
      rewrite lookup_insert_or_ignore in Hstep.
      destruct (roomserver_event_json txn !! k); [by left|].
      destruct (decide (wrap64 nid = k)) as [Heq|]; [|done].
      injection Hstep as ->. right. exists env, ctx, nid. split; [left|done].
    + left.
      destruct (bulkSelectEventJSON_after env ctx nids txn) as [Hsame|Hsame];
        rewrite Hsame in Hstep; [done|].
      by rewrite CloseAndLogIfError_table in Hstep.
  - right. exists env, ctx, nid. split; [by right|done].
Qed.

Lemma stored_row_origin_run :
  db_of db_abc !! 4%Z = Some json_a
  ∨ ∃ env ctx eventNID,
      CallInsert env ctx eventNID json_a
        ∈ [CallBulkSelect healthy Background [1; 4]%Z;
           CallInsert healthy Background 4%Z json_a;
           CallInsert healthy Background 4%Z json_b]
      ∧ int64_of_EventNID eventNID = 4%Z.
Proof. apply stored_row_origin. vm_compute. reflexivity. Defined.

(** ** The log *)

(** X14: a bulk select that returns a result sequence leaves the whole
    database, the log included, as it was, even where closing rows fails:
    the rows are closed already when the loop ends.  The database after any
    call is the one before, or the one before with one line more in the log;
    the line is there only when a [Scan] failed, and its error was returned,
    and closing the rows, still open then, failed too. *)
Theorem bulkSelectEventJSON_log
    env ctx (eventNIDs : list EventNID) (txn : DB) :
  (∀ results err,
     (bulkSelectEventJSON env ctx eventNIDs txn).1 = Return (Some results) err →
     (bulkSelectEventJSON env ctx eventNIDs txn).2 = txn)
  ∧ ((bulkSelectEventJSON env ctx eventNIDs txn).2 = txn
     ∨ ((bulkSelectEventJSON env ctx eventNIDs txn).2 = with_log close_message txn
        ∧ is_Some (close_fault env)
        ∧ ∃ i e, i < length eventNIDs ∧ scan_failed env i = Some e
                 ∧ (bulkSelectEventJSON env ctx eventNIDs txn).1
                   = Return None (Some e))).
Proof.
  rewrite bulkSelectEventJSON_unfold.
  destruct (interrupted ctx (query_fault env)); cbn [fst snd].
  { split; [discriminate|by left]. }
  pose proof (select_in_fits (roomserver_event_json txn) eventNIDs) as Hfits.
  destruct (read_rows_cases env ctx _ _ _ Hfits)
    as [(n & _ & _ & ->)|(k & e & Hk & He & ->)];
    cbn [closed_by_Next Rows_Close CloseAndLogIfError].
  - split; [done|by left].
  - split; [discriminate|].
    destruct (close_fault env) as [c|] eqn:Hclose; [right|by left].
    split; [done|]. split; [by eexists|]. exists k, e.
    rewrite length_replicate in Hfits. split; [lia|done].
Qed.

Lemma bulkSelectEventJSON_log_run :
  (bulkSelectEventJSON env_close_fails Background [2; 1]%Z db_abc).2 = db_abc.
Proof.
  apply (proj1 (bulkSelectEventJSON_log env_close_fails Background [2; 1]%Z db_abc)
           [mkPair 1%Z json_a; mkPair 2%Z json_b] None).
  vm_compute. reflexivity.
Defined.

(** A failed [Scan] followed by a failed close: the error of [Scan] is
    returned and the failure to close is logged. *)
Example scan_and_close_fail :
  bulkSelectEventJSON env_scan_and_close_fail Background [1; 2; 3]%Z db_abc
  = (Return None (Some (ErrDriver "sql: Scan error")),
     with_log close_message db_abc).
Proof. vm_compute. reflexivity. Qed.
